(** * Sonic Pi API: settings directives, session life cycle, audio hand-off

    Shallow embedding of [app/api/include/api/sonicpi_api.h].

    - [APISettings] and [APISettings::Preprocess] are embedded from the
      header, statement by statement. The method is [const] and receives
      [code] by reference, so it is a transformer of a frame that holds the
      receiver and the referenced string.
    - The header only declares [class SonicPiAPI]: its enum [State], its
      public methods and their return types are taken from it, the
      behaviour of the methods is modelled from the specification and
      marked as such.

    Part I holds the definitions, Part II the lemmas and theorems. *)

From Stdlib Require Import ZArith List String Ascii Bool Lia DecimalString.
From Stdlib Require DecimalFacts DecimalPos DecimalZ.
Import ListNotations.

Open Scope string_scope.

(** * Part I: definitions *)

(** ** [std::string] helpers *)

Module Str.

(** The two characters that are not written inside a string literal here. *)
Definition nl_char : ascii := "010"%char.
Definition nl : string := String nl_char "".
Definition dquote : string := String "034"%char "".

(** [mem c s]: the character [c] occurs in [s]. *)
Fixpoint mem (c : ascii) (s : string) : bool :=
  match s with
  | "" => false
  | String x s' => Ascii.eqb x c || mem c s'
  end.

(** [all p s]: every character of [s] satisfies [p]. *)
Fixpoint all (p : ascii -> bool) (s : string) : bool :=
  match s with
  | "" => true
  | String c s' => p c && all p s'
  end.

(** [contains m s]: [m] occurs in [s] as a contiguous substring. *)
Fixpoint contains (m s : string) : bool :=
  prefix m s ||
  match s with
  | "" => false
  | String _ s' => contains m s'
  end.

(** [split_nl s]: the pieces of [s] between newline characters; a string
    that ends in a newline has an empty last piece. *)
Fixpoint split_nl (s : string) : list string :=
  match s with
  | "" => [""]
  | String c s' =>
      if Ascii.eqb c nl_char then "" :: split_nl s'
      else match split_nl s' with
           | [] => [String c ""]
           | l :: ls => String c l :: ls
           end
  end.

(** The newline-terminated lines of [s]: every piece but the last. *)
Definition lines (s : string) : list string := removelast (split_nl s).

(** [unlines ls]: the lines of [ls], each followed by a newline. *)
Fixpoint unlines (ls : list string) : string :=
  match ls with
  | [] => ""
  | l :: ls' => l ++ nl ++ unlines ls'
  end.

End Str.

(** ** [std::to_string(int)] *)

(** The decimal representation of an [int]: a minus sign for a negative
    value, then the digits without leading zeros. *)
Definition to_string (z : Z) : string := NilZero.string_of_int (Z.to_int z).

(** The characters [std::to_string] can produce. *)
Definition decimal_char (c : ascii) : bool := Str.mem c "-0123456789".

(** ** [struct APISettings] *)

(** Fields in declaration order. [int] is a 32-bit signed integer, held as
    a [Z]; the method does no arithmetic on it, so no wrap-around arises. *)
Record APISettings : Set := mkAPISettings {
  logSynths : bool;
  logCues : bool;
  checkArgs : bool;
  enableExternalSynths : bool;
  timingGuarantees : bool;
  defaultMidiChannel : Z
}.

(** The default member initialisers of the struct. *)
Definition default_settings : APISettings :=
  {| logSynths := true;
     logCues := false;
     checkArgs := true;
     enableExternalSynths := true;
     timingGuarantees := false;
     defaultMidiChannel := -1 |}.

(** *** The body of [Preprocess] as statements over a frame *)

(** What the method can reach: the receiver [*this] and the string bound
    to the reference parameter [code]. *)
Record Frame : Set := mkFrame {
  this : APISettings;
  code : string
}.

Definition Stmt : Set := Frame -> Frame.

(** [code = rhs;] *)
Definition assign_code (rhs : Frame -> string) : Stmt :=
  fun f => {| this := this f; code := rhs f |}.

(** [if (cond) { body }] *)
Definition If (cond : Frame -> bool) (body : Stmt) : Stmt :=
  fun f => if cond f then body f else f.

(** [a; b] *)
Definition seq (a b : Stmt) : Stmt := fun f => b (a f).

Declare Scope stmt_scope.
Delimit Scope stmt_scope with stmt.
Notation "a ;; b" := (seq a b) (at level 61, right associativity) : stmt_scope.

(** The text of each directive line, without its final newline. *)
Definition dir_debug : string :=
  "use_debug false #__nosave__ set by Qt GUI user preferences.".
Definition dir_cue_logging : string :=
  "use_cue_logging false #__nosave__ set by Qt GUI user preferences.".
Definition dir_arg_checks : string :=
  "use_arg_checks true #__nosave__ set by Qt GUI user preferences.".
Definition dir_external_synths : string :=
  "use_external_synths true #__nosave__ set by Qt GUI user preferences.".
Definition dir_timing : string :=
  "use_timing_guarantees true #__nosave__ set by Qt GUI user preferences.".

(** The string literals of the method. *)
Definition lit_debug : string := dir_debug ++ Str.nl.
Definition lit_cue_logging : string := dir_cue_logging ++ Str.nl.
Definition lit_arg_checks : string := dir_arg_checks ++ Str.nl.
Definition lit_external_synths : string := dir_external_synths ++ Str.nl.
Definition lit_timing : string := dir_timing ++ Str.nl.
Definition lit_midi_open : string := "use_midi_defaults channel: " ++ Str.dquote.
Definition midi_note : string :=
  Str.dquote ++ " #__nosave__ set by Qt GUI user preferences.".
Definition lit_midi_close : string := midi_note ++ Str.nl.

(** [defaultMidiChannel == -1 ? "*" : std::to_string(defaultMidiChannel)] *)
Definition midi_channel (s : APISettings) : string :=
  if (defaultMidiChannel s =? -1)%Z then "*" else to_string (defaultMidiChannel s).

(** [void Preprocess(std::string& code) const]: five guarded assignments
    and a last unguarded one, each of the form [code = literal + code]. *)
Definition Preprocess_body : Stmt :=
  ( If (fun f => negb (logSynths (this f)))
      (assign_code (fun f => lit_debug ++ code f)) ;;
    If (fun f => negb (logCues (this f)))
      (assign_code (fun f => lit_cue_logging ++ code f)) ;;
    If (fun f => checkArgs (this f))
      (assign_code (fun f => lit_arg_checks ++ code f)) ;;
    If (fun f => enableExternalSynths (this f))
      (assign_code (fun f => lit_external_synths ++ code f)) ;;
    If (fun f => timingGuarantees (this f))
      (assign_code (fun f => lit_timing ++ code f)) ;;
    assign_code (fun f =>
      ((lit_midi_open ++ midi_channel (this f)) ++ lit_midi_close) ++ code f)
  )%stmt.

(** The string left in [code] when the method returns. *)
Definition Preprocess (s : APISettings) (c : string) : string :=
  code (Preprocess_body {| this := s; code := c |}).

(** The receiver as the method leaves it. *)
Definition Preprocess_this (s : APISettings) (c : string) : APISettings :=
  this (Preprocess_body {| this := s; code := c |}).

(** *** Reading the output of [Preprocess] *)

(** The block that [Preprocess] puts in front of the code. *)
Definition prefix_block (s : APISettings) : string := Preprocess s "".

(** The MIDI-channel directive line. *)
Definition dir_midi (s : APISettings) : string :=
  lit_midi_open ++ midi_channel s ++ midi_note.

Definition when (b : bool) (l : string) : list string := if b then [l] else [].

(** The directive lines in the order they stand in the output. *)
Definition directives (s : APISettings) : list string :=
  [dir_midi s]
  ++ when (timingGuarantees s) dir_timing
  ++ when (enableExternalSynths s) dir_external_synths
  ++ when (checkArgs s) dir_arg_checks
  ++ when (negb (logCues s)) dir_cue_logging
  ++ when (negb (logSynths s)) dir_debug.

(** The annotation that keeps a line out of saved files. *)
Definition nosave : string := "#__nosave__".

(** The five boolean toggles of the struct. *)
Inductive Toggle : Set :=
  LogSynths | LogCues | CheckArgs | EnableExternalSynths | TimingGuarantees.

Definition toggles : list Toggle :=
  [LogSynths; LogCues; CheckArgs; EnableExternalSynths; TimingGuarantees].

Definition enabled (s : APISettings) (t : Toggle) : bool :=
  match t with
  | LogSynths => logSynths s
  | LogCues => logCues s
  | CheckArgs => checkArgs s
  | EnableExternalSynths => enableExternalSynths s
  | TimingGuarantees => timingGuarantees s
  end.

Definition enabled_toggles (s : APISettings) : list Toggle :=
  filter (enabled s) toggles.

(** The reading of the output under which there is one directive line per
    enabled toggle and then the MIDI line, the last one before the code. *)
Definition line_per_enabled_toggle_midi_last (s : APISettings) (c : string) : Prop :=
  let ls := Str.lines (prefix_block s) in
  Preprocess s c = Str.unlines ls ++ c /\
  List.length ls = List.length (enabled_toggles s) + 1 /\
  last ls "" = dir_midi s.

(** Settings with every toggle off. *)
Definition all_off : APISettings :=
  {| logSynths := false;
     logCues := false;
     checkArgs := false;
     enableExternalSynths := false;
     timingGuarantees := false;
     defaultMidiChannel := -1 |}.

(** The toggles that put a directive in front of the code: the two logging
    toggles do so when they are off, the other three when they are on. *)
Definition emits (s : APISettings) (t : Toggle) : bool :=
  match t with
  | LogSynths => negb (logSynths s)
  | LogCues => negb (logCues s)
  | CheckArgs => checkArgs s
  | EnableExternalSynths => enableExternalSynths s
  | TimingGuarantees => timingGuarantees s
  end.

(** The directive line each toggle stands for. *)
Definition toggle_directive (t : Toggle) : string :=
  match t with
  | LogSynths => dir_debug
  | LogCues => dir_cue_logging
  | CheckArgs => dir_arg_checks
  | EnableExternalSynths => dir_external_synths
  | TimingGuarantees => dir_timing
  end.

(** [opt b l c]: the value of [code] after [if (b) code = l + code;]. *)
Definition opt (b : bool) (l c : string) : string := if b then l ++ c else c.

(** A statement that leaves the receiver as it found it. *)
Definition keeps_this (st : Stmt) : Prop := forall f, this (st f) = this f.

(** ** [class SonicPiAPI] *)

(** [enum State] of the class; a session starts with [m_state = Start]. *)
Inductive State : Set := Start | Initializing | Invalid | Created.

(** [enum class StatusType] and [struct StatusInfo]. *)
Inductive StatusType : Set := Ack | AllComplete | Exited.

Record StatusInfo : Set := mkStatusInfo {
  type : StatusType;
  id : string
}.

(** The public methods of the class, in declaration order, with the
    arguments that matter to the session; [GetPath] and [GetPort] take an
    enumerator that plays no part here. *)
Inductive Op : Set :=
| OpInit
| OpWaitForServer
| OpShutdown
| OpRun (buffer text : string)
| OpStop
| OpBufferNewLineAndIndent (point_line point_index first_line : Z)
    (code fileName id : string)
| OpAudioProcessor_Enable (enable : bool)
| OpAudioProcessor_EnableFFT (enable : bool)
| OpAudioProcessor_SetMaxFFTBuckets (buckets : N)
| OpAudioProcessor_ConsumedAudio
| OpGetLogs
| OpGetGuid
| OpTestAudio
| OpGetPath
| OpGetPort
| OpSendOSC (address : string)
| OpLoadWorkspaces
| OpSaveWorkspaces
| OpMaxWorkspaces
| OpSaveAndRunBuffer (name code : string)
| OpGetSettings
| OpSetSettings (settings : APISettings).


(** Modelled from the spec: the error kinds of section 7; the header
    declares none of them. *)
Inductive ErrorKind : Set :=
| PortDiscoveryFailed
| ProcessLaunchFailed
| ProcessDiedUnexpectedly
| TransportBindFailed
| ReadinessTimeout
| MalformedMessage
| PreconditionViolation.

(** Modelled from the spec: the life cycle of section 4.4. The bodies of
    the methods of [SonicPiAPI] are missing; the spec adds to the declared
    states a terminal shut-down stage that every state can move to. *)
Inductive Lifecycle : Set :=
| At (st : State)
| ShutDown.

(** Modelled from the spec: what a session holds. [runtime_up] and
    [transport_up] say whether the external runtime process runs and
    whether the message transport is bound (the members [m_spRubyServer]
    and [m_spOscServer] of the header, whose handling is missing). *)
Record Session : Set := mkSession {
  phase : Lifecycle;
  m_settings : APISettings;
  runtime_up : bool;
  transport_up : bool
}.


(** Modelled from the spec: the four steps of the shutdown sequence of
    section 4.2. *)
Inductive ShutdownStep : Set :=
| SendStop
| Terminate
| Cleanup
| CloseTransport.

(** Modelled from the spec: how the start-up of [Init] ends, stage by stage
    (port registry, then process launch, then transport bind). *)
Inductive InitOutcome : Set :=
| InitOk
| PortsFail
| LaunchFail
| BindFail.

(** Modelled from the spec: what the surroundings do during one call.
    [ready_ack]: the status message, if any, that arrives within the wait
    for readiness;
    [stop_ack]: the status message, if any, that answers the stop-session
    message within the grace period; [fails]: the shutdown steps that
    fail. *)
Record Env : Set := mkEnv {
  init_outcome : InitOutcome;
  ready_ack : option StatusInfo;
  stop_ack : option StatusInfo;
  fails : ShutdownStep -> bool
}.

(** Modelled from the spec: the messages sent to the runtime. The spec
    gives no address patterns, so a message is named by the call it comes
    from; submitted code travels after [Preprocess]. *)
Inductive Outbound : Set :=
| RunCode (buffer code : string)
| Request (op : Op)
| StopSession.

(** Modelled from the spec: calls into [IAPIClient]. Only [Status] is made
    by the modelled methods; [CbStatusFatal] is the Status event that
    surfaces a fatal error, whose payload the spec leaves open. *)
Inductive Callback : Set :=
| CbStatus (info : StatusInfo)
| CbStatusFatal (k : ErrorKind).

(** Modelled from the spec: what one call does besides changing the
    session. [error] is what the call reports to its caller, [swallowed]
    the failed steps that were only logged. *)
Record Outcome : Set := mkOutcome {
  sent : list Outbound;
  callbacks : list Callback;
  error : option ErrorKind;
  swallowed : list ShutdownStep
}.






(** Modelled from the spec: the acknowledgment the shutdown waits for, a
    status of type [AllComplete] or [Exited] (section 4.2, step 1). *)
Definition acknowledgment (a : option StatusInfo) : option StatusInfo :=
  match a with
  | Some i => match type i with AllComplete | Exited => Some i | Ack => None end
  | None => None
  end.

Definition failed (e : Env) (st : ShutdownStep) : list ShutdownStep :=
  if fails e st then [st] else [].

(** Modelled from the spec: [Shutdown] (section 4.2). (1) The stop-session
    message goes out if the transport is bound, and the acknowledgment can
    only come back through it from a runtime that still runs: one that has
    exited, and whose exit the client was told, answers nothing; (2)
    without an acknowledgment the process is terminated; (3) the cleanup
    process runs; (4) the transport is closed. A failing step is logged
    and the next one runs; nothing is reported to the caller (section 7:
    shutdown-path errors are swallowed and shutdown completes regardless),
    and afterwards the session holds neither the process nor the
    transport. *)
Definition Shutdown (s : Session) (e : Env) : Session * Outcome :=
  let stop_sent := transport_up s && negb (fails e SendStop) in
  let answer :=
    if stop_sent && runtime_up s then acknowledgment (stop_ack e) else None in
  let step1 := if stop_sent then [] else [SendStop] in
  let step2 := match answer with Some _ => [] | None => failed e Terminate end in
  let step3 := failed e Cleanup in
  let step4 := failed e CloseTransport in
  ({| phase := ShutDown; m_settings := m_settings s;
      runtime_up := false; transport_up := false |},
   {| sent := if stop_sent then [StopSession] else [];
      callbacks := match answer with Some i => [CbStatus i] | None => [] end;
      error := None;
      swallowed := step1 ++ step2 ++ step3 ++ step4 |}).




















(** ** Audio hand-off *)

(** A [float], kept as its 32-bit pattern; nothing here computes on it. *)
Definition float : Set := Z.

(** [struct ProcessedAudio]; an array of two vectors is a pair. *)
Record ProcessedAudio : Set := mkProcessedAudio {
  m_spectrum : list float * list float;
  m_spectrumQuantized : list float * list float;
  m_samples : list float * list float;
  m_monoSamples : list float
}.

(** Modelled from the spec: the hand-off of section 4.5; the class
    [AudioProcessor] is only forward-declared. [unread] holds the
    snapshots published and not yet acknowledged by the client; the other
    fields are what the three setters of the header set. *)
Record AudioPipe : Set := mkAudioPipe {
  processing : bool;
  fft : bool;
  max_buckets : N;
  unread : list ProcessedAudio
}.

Definition new_pipe : AudioPipe :=
  {| processing := false; fft := false; max_buckets := 0%N; unread := [] |}.

(** Modelled from the spec: what reaches the pipeline. [Publish]: the
    analysis of a block is done and the client is told through
    [AudioDataAvailable]; [ConsumedAudio]: the client has read the last
    snapshot; the other three are the setters [AudioProcessor_Enable],
    [AudioProcessor_EnableFFT] and [AudioProcessor_SetMaxFFTBuckets]. *)
Inductive AudioEvent : Set :=
| Publish (a : ProcessedAudio)
| ConsumedAudio
| Enable (enable : bool)
| EnableFFT (enable : bool)
| SetMaxFFTBuckets (buckets : N).

(** Modelled from the spec: a new snapshot overwrites an unread one rather
    than queuing; [consumedAudio] acknowledges the last published one; a
    disabled pipeline ingests nothing. *)
Definition audio_step (p : AudioPipe) (ev : AudioEvent) : AudioPipe :=
  match ev with
  | Publish a =>
      if processing p then
        {| processing := true; fft := fft p; max_buckets := max_buckets p;
           unread := [a] |}
      else p
  | ConsumedAudio =>
      {| processing := processing p; fft := fft p; max_buckets := max_buckets p;
         unread := [] |}
  | Enable enable =>
      {| processing := enable; fft := fft p; max_buckets := max_buckets p;
         unread := unread p |}
  | EnableFFT enable =>
      {| processing := processing p; fft := enable; max_buckets := max_buckets p;
         unread := unread p |}
  | SetMaxFFTBuckets buckets =>
      {| processing := processing p; fft := fft p; max_buckets := buckets;
         unread := unread p |}
  end.

Definition audio_run (p : AudioPipe) (evs : list AudioEvent) : AudioPipe :=
  fold_left audio_step evs p.

(** ** Further readings of [Preprocess] *)

(** The values an [int] can hold. *)
Definition int_range (z : Z) : Prop := (- 2 ^ 31 <= z < 2 ^ 31)%Z.

(** [skip n s]: [s] without its first [n] characters. *)
Fixpoint skip (n : nat) (s : string) : string :=
  match n, s with
  | O, _ => s
  | S n', String _ s' => skip n' s'
  | S _, "" => ""
  end.

(** [occurrences c s]: how often the character [c] stands in [s]. *)
Fixpoint occurrences (c : ascii) (s : string) : nat :=
  match s with
  | "" => 0
  | String x s' => (if Ascii.eqb x c then 1 else 0) + occurrences c s'
  end.

(** [join ls]: the strings of [ls] one after the other. *)
Definition join (ls : list string) : string := fold_right String.append "" ls.

(** Printable ASCII, and the characters a directive block is made of. *)
Definition printable (c : ascii) : bool :=
  Nat.leb 32 (nat_of_ascii c) && Nat.leb (nat_of_ascii c) 126.

Definition block_char (c : ascii) : bool := printable c || Ascii.eqb c Str.nl_char.

(** The characters a channel is written with. *)
Definition channel_char (c : ascii) : bool := Str.mem c "-0123456789*".

(** [Preprocess] called once for each settings value of [ss], first to
    last, each time on the string the call before left in [code]. *)
Definition Preprocess_all (ss : list APISettings) (c : string) : string :=
  fold_left (fun acc s => Preprocess s acc) ss c.

(** The settings [s] with [logSynths] set to [b]. *)
Definition set_logSynths (b : bool) (s : APISettings) : APISettings :=
  {| logSynths := b;
     logCues := logCues s;
     checkArgs := checkArgs s;
     enableExternalSynths := enableExternalSynths s;
     timingGuarantees := timingGuarantees s;
     defaultMidiChannel := defaultMidiChannel s |}.

(** The settings that write the shortest block and those that write the
    longest one an [int] channel allows. *)
Definition quietest : APISettings :=
  {| logSynths := true;
     logCues := true;
     checkArgs := false;
     enableExternalSynths := false;
     timingGuarantees := false;
     defaultMidiChannel := -1 |}.

Definition loudest : APISettings :=
  {| logSynths := false;
     logCues := false;
     checkArgs := true;
     enableExternalSynths := true;
     timingGuarantees := true;
     defaultMidiChannel := -2147483648 |}.

Definition min_block_length : nat := 75.
Definition max_block_length : nat := 415.

(** * Part II: lemmas and theorems *)

(** ** Strings *)

Module StrFacts.
Import Str.

Lemma append_nil_r (s : string) : s ++ "" = s.
Proof. induction s as [|c s IH]; simpl; [reflexivity | now rewrite IH]. Qed.

Lemma append_assoc (a b c : string) : (a ++ b) ++ c = a ++ (b ++ c).
Proof. induction a as [|x a IH]; simpl; [reflexivity | now rewrite IH]. Qed.

Lemma mem_app c a b : mem c (a ++ b) = mem c a || mem c b.
Proof.
  induction a as [|x a IH]; simpl; [reflexivity|].
  now rewrite IH, orb_assoc.
Qed.

(** A character rejected by [p] does not occur in a string whose
    characters all satisfy [p]. *)
Lemma all_mem p c s : all p s = true -> p c = false -> mem c s = false.
Proof.
  induction s as [|x s IH]; simpl; intros Hall Hc; [reflexivity|].
  apply andb_true_iff in Hall as [Hx Hs].
  rewrite (IH Hs Hc), orb_false_r.
  destruct (Ascii.eqb_spec x c) as [->|]; [congruence | reflexivity].
Qed.

Lemma prefix_app_l m a b : prefix m a = true -> prefix m (a ++ b) = true.
Proof.
  revert a; induction m as [|x m IH]; intros a H.
  - now destruct (a ++ b).
  - destruct a as [|y a]; simpl in *; [discriminate|].
    destruct (ascii_dec x y); [now apply IH | discriminate].
Qed.

Lemma contains_app_l m a b : contains m a = true -> contains m (a ++ b) = true.
Proof.
  induction a as [|x a IH]; intros H.
  - simpl in H. rewrite orb_false_r in H.
    destruct m; [|discriminate]. now destruct b.
  - change (String x a ++ b) with (String x (a ++ b)).
    cbn [contains] in *. apply orb_true_iff in H as [H|H]; apply orb_true_iff.
    + left. exact (prefix_app_l m (String x a) b H).
    + right. now apply IH.
Qed.

Lemma contains_app_r m a b : contains m b = true -> contains m (a ++ b) = true.
Proof.
  induction a as [|x a IH]; intros H; [exact H|].
  change (String x a ++ b) with (String x (a ++ b)).
  cbn [contains]. apply orb_true_iff; right. now apply IH.
Qed.

(** [prefix] and [contains] decide what their names say. *)
Lemma prefix_iff m : forall s, prefix m s = true <-> exists post, s = m ++ post.
Proof.
  induction m as [|x m IH]; intros s.
  - split; [intros _; now exists s | intros _; now destruct s].
  - destruct s as [|y s]; cbn [prefix].
    + split; [discriminate | intros [post H]; discriminate H].
    + destruct (ascii_dec x y) as [->|ne].
      * rewrite IH. split; intros [post H]; exists post.
        -- now rewrite H.
        -- cbn [append] in H. now injection H.
      * split; [discriminate|]. intros [post H]. cbn [append] in H.
        injection H as Hy _. now elim ne.
Qed.

Lemma contains_iff m s :
  contains m s = true <-> exists pre post, s = pre ++ m ++ post.
Proof.
  induction s as [|y s IH]; cbn [contains].
  - rewrite orb_false_r, prefix_iff. split.
    + intros [post H]. now exists "", post.
    + intros [pre [post H]]. destruct pre; [now exists post | discriminate H].
  - rewrite orb_true_iff, prefix_iff, IH. split.
    + intros [[post H]|[pre [post H]]].
      * now exists "", post.
      * exists (String y pre), post. cbn [append]. now rewrite H.
    + intros [pre [post H]]. destruct pre as [|z pre].
      * left. now exists post.
      * right. exists pre, post. cbn [append] in H. now injection H.
Qed.

Lemma split_nl_nonempty s : split_nl s <> [].
Proof.
  destruct s as [|c s]; simpl; [discriminate|].
  destruct (Ascii.eqb c nl_char); [discriminate|].
  destruct (split_nl s); discriminate.
Qed.

(** A first line without a newline character is the first piece. *)
Lemma split_nl_line a rest :
  mem nl_char a = false -> split_nl (a ++ nl ++ rest) = a :: split_nl rest.
Proof.
  induction a as [|x a IH]; intros H; [reflexivity|].
  simpl in H. apply orb_false_iff in H as [Hx Ha].
  change (String x a ++ nl ++ rest) with (String x (a ++ nl ++ rest)).
  cbn [split_nl]. rewrite Hx, (IH Ha). reflexivity.
Qed.

Lemma lines_line a rest :
  mem nl_char a = false -> lines (a ++ nl ++ rest) = a :: lines rest.
Proof.
  intros H. unfold lines. rewrite (split_nl_line a rest H).
  cbn [removelast]. destruct (split_nl rest) eqn:E; [|reflexivity].
  now elim (split_nl_nonempty rest).
Qed.

(** Splitting what [unlines] builds from newline-free lines gives the
    lines back. *)
Lemma lines_unlines ls :
  Forall (fun l => mem nl_char l = false) ls -> lines (unlines ls) = ls.
Proof.
  induction 1 as [|l ls Hl _ IH]; [reflexivity|].
  cbn [unlines]. now rewrite (lines_line l _ Hl), IH.
Qed.

(** Putting the lines and the text after the last newline together gives
    the string back. *)
Lemma unlines_lines s : unlines (lines s) ++ last (split_nl s) "" = s.
Proof.
  unfold lines. induction s as [|c s IH]; [reflexivity|].
  cbn [split_nl]. destruct (Ascii.eqb_spec c nl_char) as [->|ne].
  - pose proof (split_nl_nonempty s) as Hne.
    destruct (split_nl s) as [|l ls] eqn:E; [now elim Hne|].
    change (removelast ("" :: l :: ls)) with ("" :: removelast (l :: ls)).
    change (last ("" :: l :: ls) "") with (last (l :: ls) "").
    cbn [unlines]. rewrite !append_assoc. cbn [append nl]. now rewrite IH.
  - pose proof (split_nl_nonempty s) as Hne.
    destruct (split_nl s) as [|l ls] eqn:E; [now elim Hne|].
    destruct ls as [|l' ls].
    + cbn [removelast last unlines append] in *. now rewrite IH.
    + change (removelast (String c l :: l' :: ls))
        with (String c l :: removelast (l' :: ls)).
      change (removelast (l :: l' :: ls)) with (l :: removelast (l' :: ls)) in IH.
      change (last (String c l :: l' :: ls) "") with (last (l' :: ls) "").
      change (last (l :: l' :: ls) "") with (last (l' :: ls) "") in IH.
      cbn [unlines] in *. rewrite !append_assoc in *. cbn [append]. now rewrite IH.
Qed.

Lemma unlines_app xs ys : unlines (xs ++ ys) = unlines xs ++ unlines ys.
Proof.
  induction xs as [|x xs IH]; [reflexivity|].
  cbn [unlines List.app]. now rewrite IH, !append_assoc.
Qed.

End StrFacts.

(** ** [std::to_string] *)

Lemma string_of_uint_decimal (d : Decimal.uint) :
  Str.all decimal_char (NilEmpty.string_of_uint d) = true.
Proof. induction d; simpl; auto. Qed.

(** [std::to_string] writes only a sign and digits. *)
Lemma to_string_decimal (z : Z) : Str.all decimal_char (to_string z) = true.
Proof.
  unfold to_string. destruct (Z.to_int z) as [d|d]; simpl.
  - destruct d; try reflexivity; apply (string_of_uint_decimal (_ d)).
  - destruct d; try reflexivity; apply (string_of_uint_decimal (_ d)).
Qed.

Lemma to_string_no_nl (z : Z) : Str.mem Str.nl_char (to_string z) = false.
Proof. apply (StrFacts.all_mem decimal_char); [apply to_string_decimal | reflexivity]. Qed.

Lemma to_string_not_star (z : Z) : to_string z <> "*".
Proof.
  intros E. pose proof (to_string_decimal z) as H. rewrite E in H. discriminate H.
Qed.

(** ** [APISettings::Preprocess] *)

Lemma keeps_this_assign rhs : keeps_this (assign_code rhs).
Proof. intros f. reflexivity. Qed.

Lemma keeps_this_If cond body : keeps_this body -> keeps_this (If cond body).
Proof. intros Hb f. unfold If. destruct (cond f); [apply Hb | reflexivity]. Qed.

Lemma keeps_this_seq a b : keeps_this a -> keeps_this b -> keeps_this (a ;; b)%stmt.
Proof. intros Ha Hb f. unfold seq. now rewrite Hb, Ha. Qed.

Create HintDb frame.
#[local] Hint Resolve keeps_this_assign keeps_this_If keeps_this_seq : frame.

(** No statement of the method assigns to a member of the receiver. *)
Lemma Preprocess_body_keeps_this : keeps_this Preprocess_body.
Proof. unfold Preprocess_body. auto 10 with frame. Qed.

(** The method as one assignment: the MIDI line, then the guarded lines
    from the last guard of the body back to the first, then the code. *)
Lemma Preprocess_body_eq f :
  Preprocess_body f =
  {| this := this f;
     code := ((lit_midi_open ++ midi_channel (this f)) ++ lit_midi_close)
             ++ opt (timingGuarantees (this f)) lit_timing
                 (opt (enableExternalSynths (this f)) lit_external_synths
                   (opt (checkArgs (this f)) lit_arg_checks
                     (opt (negb (logCues (this f))) lit_cue_logging
                       (opt (negb (logSynths (this f))) lit_debug (code f))))) |}.
Proof.
  destruct f as [[a b c d e z] c0].
  destruct a, b, c, d, e; reflexivity.
Qed.

Lemma midi_line_assoc ch rest :
  ((lit_midi_open ++ ch) ++ lit_midi_close) ++ rest
  = (lit_midi_open ++ ch ++ midi_note) ++ Str.nl ++ rest.
Proof. unfold lit_midi_close. now rewrite !StrFacts.append_assoc. Qed.

Lemma opt_when b l c : opt b (l ++ Str.nl) c = Str.unlines (when b l) ++ c.
Proof.
  destruct b; cbn [opt when Str.unlines]; [|reflexivity].
  now rewrite !StrFacts.append_assoc.
Qed.

(** The output is the directive lines, each with its newline, then the
    code. *)
Lemma Preprocess_unlines s c : Preprocess s c = Str.unlines (directives s) ++ c.
Proof.
  unfold Preprocess. rewrite Preprocess_body_eq. cbn [this code].
  rewrite midi_line_assoc.
  unfold lit_timing, lit_external_synths, lit_arg_checks, lit_cue_logging, lit_debug.
  rewrite !opt_when. unfold directives.
  rewrite !StrFacts.unlines_app. cbn [Str.unlines]. unfold dir_midi.
  rewrite !StrFacts.append_assoc. reflexivity.
Qed.

Lemma prefix_block_unlines s : prefix_block s = Str.unlines (directives s).
Proof. unfold prefix_block. now rewrite Preprocess_unlines, StrFacts.append_nil_r. Qed.

Lemma Preprocess_prefix s c : Preprocess s c = prefix_block s ++ c.
Proof. now rewrite prefix_block_unlines, Preprocess_unlines. Qed.

Lemma midi_channel_no_nl s : Str.mem Str.nl_char (midi_channel s) = false.
Proof.
  unfold midi_channel.
  destruct (defaultMidiChannel s =? -1)%Z; [reflexivity | apply to_string_no_nl].
Qed.

Lemma dir_midi_no_nl s : Str.mem Str.nl_char (dir_midi s) = false.
Proof.
  unfold dir_midi. rewrite !StrFacts.mem_app, midi_channel_no_nl. reflexivity.
Qed.

Lemma directives_by_toggle s :
  directives s = dir_midi s :: map toggle_directive (rev (filter (emits s) toggles)).
Proof.
  unfold directives, toggles. cbn [filter emits].
  destruct (timingGuarantees s), (enableExternalSynths s), (checkArgs s),
    (logCues s), (logSynths s); reflexivity.
Qed.

Lemma toggle_directive_no_nl t : Str.mem Str.nl_char (toggle_directive t) = false.
Proof. destruct t; reflexivity. Qed.

Lemma toggle_directive_nosave t : Str.contains nosave (toggle_directive t) = true.
Proof. destruct t; reflexivity. Qed.

Lemma directives_no_nl s : Forall (fun l => Str.mem Str.nl_char l = false) (directives s).
Proof.
  rewrite directives_by_toggle. constructor; [apply dir_midi_no_nl|].
  apply Forall_map, Forall_forall. intros t _. apply toggle_directive_no_nl.
Qed.

(** Read back from the output, the lines of the block are the directives. *)
Lemma lines_prefix_block s : Str.lines (prefix_block s) = directives s.
Proof.
  rewrite prefix_block_unlines. apply StrFacts.lines_unlines, directives_no_nl.
Qed.

Lemma dir_midi_nosave s : Str.contains nosave (dir_midi s) = true.
Proof.
  unfold dir_midi. apply StrFacts.contains_app_r, StrFacts.contains_app_r.
  reflexivity.
Qed.

Lemma directives_nosave s : Forall (fun l => Str.contains nosave l = true) (directives s).
Proof.
  rewrite directives_by_toggle. constructor; [apply dir_midi_nosave|].
  apply Forall_map, Forall_forall. intros t _. apply toggle_directive_nosave.
Qed.

(** *** The method on concrete inputs *)

Example to_string_samples :
  to_string 0 = "0" /\ to_string 7 = "7" /\ to_string 15 = "15" /\
  to_string (-2) = "-2" /\ to_string (-2147483648) = "-2147483648".
Proof. repeat split. Qed.

Example midi_channel_samples :
  midi_channel default_settings = "*" /\
  midi_channel (mkAPISettings true false true true false 0) = "0" /\
  midi_channel (mkAPISettings true false true true false 16) = "16" /\
  midi_channel (mkAPISettings true false true true false (-2)) = "-2".
Proof. repeat split. Qed.

Example Preprocess_default_play :
  Preprocess default_settings "play 60"
  = "use_midi_defaults channel: " ++ Str.dquote ++ "*" ++ Str.dquote
      ++ " #__nosave__ set by Qt GUI user preferences." ++ Str.nl
    ++ "use_external_synths true #__nosave__ set by Qt GUI user preferences." ++ Str.nl
    ++ "use_arg_checks true #__nosave__ set by Qt GUI user preferences." ++ Str.nl
    ++ "use_cue_logging false #__nosave__ set by Qt GUI user preferences." ++ Str.nl
    ++ "play 60".
Proof. reflexivity. Qed.

Example Preprocess_all_on_channel_3 :
  Str.lines (Preprocess (mkAPISettings true true true true true 3) "")
  = ["use_midi_defaults channel: " ++ Str.dquote ++ "3" ++ Str.dquote
       ++ " #__nosave__ set by Qt GUI user preferences.";
     "use_timing_guarantees true #__nosave__ set by Qt GUI user preferences.";
     "use_external_synths true #__nosave__ set by Qt GUI user preferences.";
     "use_arg_checks true #__nosave__ set by Qt GUI user preferences."].
Proof. reflexivity. Qed.

Example Preprocess_all_off_lines :
  enabled_toggles all_off = [] /\
  Str.lines (Preprocess all_off "")
  = ["use_midi_defaults channel: " ++ Str.dquote ++ "*" ++ Str.dquote
       ++ " #__nosave__ set by Qt GUI user preferences.";
     "use_cue_logging false #__nosave__ set by Qt GUI user preferences.";
     "use_debug false #__nosave__ set by Qt GUI user preferences."].
Proof. split; reflexivity. Qed.

(** *** Shape of the output *)

(** C1, as stated, fails with every toggle off: no toggle is enabled, so
    one line per enabled toggle plus the MIDI line would be a single line,
    yet the block has three lines (the cue-logging and debug directives
    are written for toggles that are off), and its last line is the debug
    directive, not the MIDI one. *)
Lemma Preprocess_all_off_not_line_per_enabled_toggle :
  ~ line_per_enabled_toggle_midi_last all_off "".
Proof.
  unfold line_per_enabled_toggle_midi_last.
  intros (_ & Hcount & _).
  rewrite lines_prefix_block in Hcount.
  vm_compute in Hcount. discriminate Hcount.
Qed.

(** With the default settings the number of lines happens to agree, and
    the MIDI line is still the first line of the block rather than the
    last. *)
Lemma Preprocess_default_midi_not_last :
  List.length (Str.lines (prefix_block default_settings))
    = List.length (enabled_toggles default_settings) + 1 /\
  hd "" (Str.lines (prefix_block default_settings)) = dir_midi default_settings /\
  last (Str.lines (prefix_block default_settings)) "" = dir_cue_logging /\
  ~ line_per_enabled_toggle_midi_last default_settings "".
Proof.
  rewrite lines_prefix_block. repeat split; try reflexivity.
  unfold line_per_enabled_toggle_midi_last. intros (_ & _ & Hlast).
  rewrite lines_prefix_block in Hlast. vm_compute in Hlast. discriminate Hlast.
Qed.

(** C1 (amended): for every settings value and every code, the output of
    [Preprocess] is the MIDI-channel line first, then exactly one directive
    line for each toggle that emits one (logSynths and logCues when off,
    checkArgs, enableExternalSynths and timingGuarantees when on), in the
    reverse of the declaration order of the toggles, then the original
    code; read back from the output, these are the lines of the block. *)
Theorem Preprocess_directive_lines (s : APISettings) (c : string) :
  Preprocess s c
    = Str.unlines (dir_midi s :: map toggle_directive (rev (filter (emits s) toggles)))
      ++ c /\
  Str.lines (prefix_block s)
    = dir_midi s :: map toggle_directive (rev (filter (emits s) toggles)) /\
  List.length (Str.lines (prefix_block s))
    = List.length (filter (emits s) toggles) + 1.
Proof.
  rewrite lines_prefix_block, Preprocess_unlines, directives_by_toggle.
  repeat split.
  cbn [List.length]. rewrite length_map, length_rev. lia.
Qed.

(** C2: preprocessing twice with the same settings gives the code
    preprocessed once with one more copy of the same block in front. *)
Theorem Preprocess_twice (s : APISettings) (c : string) :
  Preprocess s c = prefix_block s ++ c /\
  Preprocess s (Preprocess s c) = prefix_block s ++ Preprocess s c /\
  Preprocess s (Preprocess s c) = prefix_block s ++ prefix_block s ++ c.
Proof.
  pose proof (Preprocess_prefix s c) as Once.
  pose proof (Preprocess_prefix s (Preprocess s c)) as Twice.
  repeat split; try assumption.
  rewrite Twice. f_equal. exact Once.
Qed.

(** C3: equal settings and equal code give equal output, and the method
    leaves the receiver, hence each of its fields, as it was. *)
Theorem Preprocess_pure (s1 s2 : APISettings) (c1 c2 : string) :
  s1 = s2 -> c1 = c2 ->
  Preprocess s1 c1 = Preprocess s2 c2 /\
  Preprocess_this s1 c1 = s1 /\
  logSynths (Preprocess_this s1 c1) = logSynths s1 /\
  logCues (Preprocess_this s1 c1) = logCues s1 /\
  checkArgs (Preprocess_this s1 c1) = checkArgs s1 /\
  enableExternalSynths (Preprocess_this s1 c1) = enableExternalSynths s1 /\
  timingGuarantees (Preprocess_this s1 c1) = timingGuarantees s1 /\
  defaultMidiChannel (Preprocess_this s1 c1) = defaultMidiChannel s1.
Proof.
  intros Hs Hc.
  assert (Preprocess_this s1 c1 = s1) as Hthis.
  { unfold Preprocess_this. now rewrite Preprocess_body_keeps_this. }
  split; [now rewrite Hs, Hc|].
  rewrite Hthis. repeat split.
Qed.

(** The theorem at the default settings and a one-line buffer. *)
Lemma Preprocess_pure_witness :
  Preprocess default_settings "play 60" = Preprocess default_settings "play 60" /\
  Preprocess_this default_settings "play 60" = default_settings.
Proof.
  destruct (Preprocess_pure default_settings default_settings "play 60" "play 60"
              eq_refl eq_refl) as (Hout & Hthis & _).
  split; [exact Hout | exact Hthis].
Defined.

(** C4: whatever the settings, the block in front of the code is made of
    whole lines, and each of them contains the [#__nosave__] annotation. *)
Theorem Preprocess_lines_nosave (s : APISettings) (c : string) :
  Preprocess s c = prefix_block s ++ c /\
  Str.unlines (Str.lines (prefix_block s)) = prefix_block s /\
  Forall (fun l => Str.contains nosave l = true) (Str.lines (prefix_block s)).
Proof.
  split; [apply Preprocess_prefix|].
  rewrite lines_prefix_block. split.
  - symmetry. apply prefix_block_unlines.
  - apply directives_nosave.
Qed.

(** C10: the MIDI-channel directive is written whatever the toggles are,
    with channel [*] exactly when [defaultMidiChannel] is -1 and its
    decimal representation otherwise; with the default settings the block
    has exactly four lines: MIDI channel [*], external synths on, argument
    checks on, cue logging off. *)
Theorem Preprocess_midi_unconditional (s : APISettings) (c : string) :
  Preprocess s c
    = (dir_midi s ++ Str.nl)
      ++ Str.unlines (map toggle_directive (rev (filter (emits s) toggles))) ++ c /\
  dir_midi s = lit_midi_open ++ midi_channel s ++ midi_note /\
  (midi_channel s = "*" <-> defaultMidiChannel s = (-1)%Z) /\
  (defaultMidiChannel s = (-1)%Z \/ midi_channel s = to_string (defaultMidiChannel s)) /\
  Str.lines (prefix_block default_settings)
    = [lit_midi_open ++ "*" ++ midi_note;
       dir_external_synths; dir_arg_checks; dir_cue_logging] /\
  Preprocess default_settings c
    = Str.unlines [lit_midi_open ++ "*" ++ midi_note;
                   dir_external_synths; dir_arg_checks; dir_cue_logging] ++ c.
Proof.
  split.
  { rewrite Preprocess_unlines, directives_by_toggle. cbn [Str.unlines].
    now rewrite !StrFacts.append_assoc. }
  split; [reflexivity|].
  split.
  { unfold midi_channel. destruct (Z.eqb_spec (defaultMidiChannel s) (-1)) as [E|NE].
    - tauto.
    - split; [intros H; now apply to_string_not_star in H | contradiction]. }
  split.
  { unfold midi_channel. destruct (Z.eqb_spec (defaultMidiChannel s) (-1)); auto. }
  split.
  - now rewrite lines_prefix_block.
  - now rewrite Preprocess_unlines.
Qed.

(** ** Session life cycle *)














(** *** [Shutdown] *)

Lemma Shutdown_phase s e : phase (fst (Shutdown s e)) = ShutDown.
Proof. reflexivity. Qed.





(** A second [Shutdown] finds the session as the first one left it. *)
Lemma Shutdown_again s e1 e2 :
  fst (Shutdown (fst (Shutdown s e1)) e2) = fst (Shutdown s e1).
Proof. reflexivity. Qed.






(** *** What the client is told, over a whole session *)










(** ** Audio hand-off *)

Lemma audio_step_bounded p ev :
  List.length (unread p) <= 1 -> List.length (unread (audio_step p ev)) <= 1.
Proof.
  intros H. destruct ev as [a| |b|b|n]; cbn [audio_step]; try exact H.
  - destruct (processing p); cbn [unread List.length]; lia.
  - cbn [unread List.length]. lia.
Qed.

Lemma audio_run_bounded evs : forall p,
  List.length (unread p) <= 1 -> List.length (unread (audio_run p evs)) <= 1.
Proof.
  unfold audio_run. induction evs as [|ev evs IH]; intros p H; cbn [fold_left].
  - exact H.
  - apply IH, audio_step_bounded, H.
Qed.

(** C8: whatever the producer and the client do, in whatever order and
    however rarely the client acknowledges, at most one snapshot is unread;
    a snapshot published while another is unread takes its place. *)
Theorem unread_at_most_one (evs : list AudioEvent) (a b : ProcessedAudio) :
  let p := audio_run new_pipe evs in
  List.length (unread p) <= 1 /\
  List.length (unread (audio_step p (Publish a))) <= 1 /\
  unread (audio_step (audio_step (audio_step p (Enable true)) (Publish a)) (Publish b))
    = [b] /\
  unread (audio_step p ConsumedAudio) = [].
Proof.
  cbv zeta.
  assert (List.length (unread (audio_run new_pipe evs)) <= 1) as Hp
    by (apply audio_run_bounded; cbn; lia).
  split; [exact Hp|]. split; [now apply audio_step_bounded|].
  split; reflexivity.
Qed.

(** ** Further string facts *)

Module StrMore.
Import Str StrFacts.

Lemma length_app (a b : string) :
  String.length (a ++ b) = String.length a + String.length b.
Proof. induction a as [|x a IH]; simpl; [reflexivity | now rewrite IH]. Qed.

Lemma app_inv_head (a b c : string) : a ++ b = a ++ c -> b = c.
Proof.
  induction a as [|x a IH]; simpl; intros H; [exact H|].
  injection H as H. now apply IH.
Qed.

Lemma skip_app (a b : string) : skip (String.length a) (a ++ b) = b.
Proof. induction a as [|x a IH]; simpl; [reflexivity | exact IH]. Qed.

Lemma all_app p (a b : string) : all p (a ++ b) = all p a && all p b.
Proof.
  induction a as [|x a IH]; simpl; [reflexivity|].
  now rewrite IH, andb_assoc.
Qed.

Lemma all_impl (p q : ascii -> bool) s :
  (forall c, p c = true -> q c = true) -> all p s = true -> all q s = true.
Proof.
  intros Hpq. induction s as [|x s IH]; simpl; [reflexivity|].
  intros H. apply andb_true_iff in H as [Hx Hs].
  now rewrite (Hpq x Hx), IH.
Qed.

Lemma occurrences_app c (a b : string) :
  occurrences c (a ++ b) = occurrences c a + occurrences c b.
Proof.
  induction a as [|x a IH]; simpl; [reflexivity|]. rewrite IH. lia.
Qed.

Lemma occurrences_absent c s : mem c s = false -> occurrences c s = 0.
Proof.
  induction s as [|x s IH]; simpl; [reflexivity|].
  intros H. apply orb_false_iff in H as [Hx Hs]. now rewrite Hx, IH.
Qed.

Lemma length_unlines ls :
  String.length (unlines ls) = list_sum (map (fun l => S (String.length l)) ls).
Proof.
  induction ls as [|l ls IH]; [reflexivity|].
  cbn [unlines map]. rewrite !length_app, IH. simpl. lia.
Qed.

(** A block of newline-free lines in front of any text splits into those
    lines and the pieces of the text. *)
Lemma split_nl_unlines_app ls rest :
  Forall (fun l => mem nl_char l = false) ls ->
  split_nl (unlines ls ++ rest) = (ls ++ split_nl rest)%list.
Proof.
  induction 1 as [|l ls Hl _ IH]; [reflexivity|].
  cbn [unlines List.app]. rewrite !append_assoc.
  now rewrite (split_nl_line l _ Hl), IH.
Qed.

Lemma join_app xs ys : join (xs ++ ys) = join xs ++ join ys.
Proof.
  unfold join. induction xs as [|x xs IH]; [reflexivity|].
  cbn [List.app fold_right]. now rewrite IH, append_assoc.
Qed.

End StrMore.

(** ** Further facts on [std::to_string] *)

Lemma to_int_not_nil (z : Z) :
  Z.to_int z <> Decimal.Pos Decimal.Nil /\ Z.to_int z <> Decimal.Neg Decimal.Nil.
Proof.
  destruct z as [|p|p]; cbn [Z.to_int]; split; try discriminate;
    intros [= H]; now apply (DecimalPos.Unsigned.to_uint_nonnil p).
Qed.

(** Distinct integers are written differently. *)
Lemma to_string_inj (a b : Z) : to_string a = to_string b -> a = b.
Proof.
  unfold to_string. intros H. apply DecimalZ.to_int_inj.
  destruct (to_int_not_nil a) as [Ha1 Ha2], (to_int_not_nil b) as [Hb1 Hb2].
  pose proof (NilZero.isi _ Ha1 Ha2) as Ia.
  pose proof (NilZero.isi _ Hb1 Hb2) as Ib.
  rewrite H in Ia. rewrite Ia in Ib. now injection Ib.
Qed.

Lemma length_string_of_uint (d : Decimal.uint) :
  String.length (NilEmpty.string_of_uint d) = Decimal.nb_digits d.
Proof. induction d; simpl; congruence. Qed.

(** The value read from digits is at least the accumulator shifted by
    their number. *)
Lemma of_uint_acc_ge (d : Decimal.uint) : forall acc,
  (Z.pos acc * 10 ^ Z.of_nat (Decimal.nb_digits d) <= Z.pos (Pos.of_uint_acc d acc))%Z.
Proof.
  induction d; intros acc; cbn [Pos.of_uint_acc Decimal.nb_digits];
    [rewrite Z.pow_0_r; lia | ..];
    rewrite Nat2Z.inj_succ, Z.pow_succ_r by lia;
    (etransitivity; [|apply IHd]);
    assert (0 < 10 ^ Z.of_nat (Decimal.nb_digits d))%Z by (apply Z.pow_pos_nonneg; lia);
    nia.
Qed.

(** A positive number of [n + 1] decimal digits is at least [10 ^ n]. *)
Lemma to_uint_magnitude (p : positive) n :
  Decimal.nb_digits (Pos.to_uint p) = S n -> (10 ^ Z.of_nat n <= Z.pos p)%Z.
Proof.
  intros Hn.
  pose proof (DecimalPos.Unsigned.of_to p) as Hof.
  pose proof (DecimalPos.Unsigned.to_of (Pos.to_uint p)) as Hnorm.
  rewrite Hof in Hnorm. cbn [N.to_uint] in Hnorm.
  destruct (Pos.to_uint p) as [|d|d|d|d|d|d|d|d|d|d] eqn:E;
    cbn [Decimal.nb_digits] in Hn; try discriminate Hn;
    injection Hn as Hn; subst n.
  - (* a leading zero is excluded by normal form *)
    exfalso. unfold Decimal.unorm in Hnorm. cbn [Decimal.nzhead] in Hnorm.
    pose proof (DecimalFacts.nb_digits_nzhead d) as Hle.
    destruct (Decimal.nzhead d) eqn:Ez; try discriminate Hnorm.
    + injection Hnorm as ->. apply (DecimalPos.Unsigned.to_uint_nonzero p). exact E.
    + injection Hnorm as ->. cbn [Decimal.nb_digits] in Hle. lia.
  - cbn [Pos.of_uint] in Hof. injection Hof as Hof. rewrite <- Hof.
    pose proof (of_uint_acc_ge d 1). lia.
  - cbn [Pos.of_uint] in Hof. injection Hof as Hof. rewrite <- Hof.
    pose proof (of_uint_acc_ge d 2). lia.
  - cbn [Pos.of_uint] in Hof. injection Hof as Hof. rewrite <- Hof.
    pose proof (of_uint_acc_ge d 3). lia.
  - cbn [Pos.of_uint] in Hof. injection Hof as Hof. rewrite <- Hof.
    pose proof (of_uint_acc_ge d 4). lia.
  - cbn [Pos.of_uint] in Hof. injection Hof as Hof. rewrite <- Hof.
    pose proof (of_uint_acc_ge d 5). lia.
  - cbn [Pos.of_uint] in Hof. injection Hof as Hof. rewrite <- Hof.
    pose proof (of_uint_acc_ge d 6). lia.
  - cbn [Pos.of_uint] in Hof. injection Hof as Hof. rewrite <- Hof.
    pose proof (of_uint_acc_ge d 7). lia.
  - cbn [Pos.of_uint] in Hof. injection Hof as Hof. rewrite <- Hof.
    pose proof (of_uint_acc_ge d 8). lia.
  - cbn [Pos.of_uint] in Hof. injection Hof as Hof. rewrite <- Hof.
    pose proof (of_uint_acc_ge d 9). lia.
Qed.

(** A positive number up to [2 ^ 31] has at most ten digits. *)
Lemma to_uint_digits (p : positive) :
  (Z.pos p <= 2 ^ 31)%Z -> Decimal.nb_digits (Pos.to_uint p) <= 10.
Proof.
  intros Hp. destruct (Decimal.nb_digits (Pos.to_uint p)) as [|n] eqn:E; [lia|].
  apply to_uint_magnitude in E.
  destruct (Nat.le_gt_cases n 9) as [Hn|Hn]; [lia|]. exfalso.
  assert (10 ^ 10 <= 10 ^ Z.of_nat n)%Z by (apply Z.pow_le_mono_r; lia).
  change (2 ^ 31)%Z with 2147483648%Z in Hp.
  change (10 ^ 10)%Z with 10000000000%Z in H. lia.
Qed.

Lemma length_string_of_pos (p : positive) :
  String.length (NilZero.string_of_uint (Pos.to_uint p))
  = Decimal.nb_digits (Pos.to_uint p).
Proof.
  pose proof (DecimalPos.Unsigned.to_uint_nonnil p) as Hnn.
  destruct (Pos.to_uint p) eqn:E; [now elim Hnn | ..];
    unfold NilZero.string_of_uint; apply length_string_of_uint.
Qed.

(** An [int] is written with one to eleven characters. *)
Lemma length_to_string (z : Z) :
  int_range z -> 1 <= String.length (to_string z) <= 11.
Proof.
  unfold int_range, to_string. intros Hz.
  destruct z as [|p|p]; cbn [Z.to_int NilZero.string_of_int].
  - cbn. lia.
  - rewrite length_string_of_pos.
    pose proof (to_uint_digits p ltac:(lia)).
    pose proof (DecimalPos.Unsigned.to_uint_nonnil p) as Hnn.
    destruct (Pos.to_uint p); [now elim Hnn | cbn [Decimal.nb_digits] in *; lia ..].
  - cbn [String.length]. rewrite length_string_of_pos.
    pose proof (to_uint_digits p ltac:(lia)). lia.
Qed.

Lemma to_string_nonempty (z : Z) : 1 <= String.length (to_string z).
Proof.
  unfold to_string.
  destruct z as [|p|p]; cbn [Z.to_int NilZero.string_of_int String.length];
    try (cbn; lia); try lia.
  rewrite length_string_of_pos.
  pose proof (DecimalPos.Unsigned.to_uint_nonnil p) as Hnn.
  destruct (Pos.to_uint p); [now elim Hnn | cbn [Decimal.nb_digits]; lia ..].
Qed.

(** ** [APISettings::Preprocess]: code, size, lines and characters *)

Lemma length_midi_channel s :
  1 <= String.length (midi_channel s) /\
  (int_range (defaultMidiChannel s) -> String.length (midi_channel s) <= 11).
Proof.
  unfold midi_channel. destruct (defaultMidiChannel s =? -1)%Z.
  - cbn. lia.
  - split; [apply to_string_nonempty | intros H; now apply length_to_string].
Qed.

Lemma length_dir_midi s :
  String.length (dir_midi s) = 73 + String.length (midi_channel s).
Proof.
  unfold dir_midi. rewrite !StrMore.length_app.
  change (String.length lit_midi_open) with 28.
  change (String.length midi_note) with 45. lia.
Qed.

(** The length of the block: the MIDI line, and each emitted directive
    with its newline. *)
Lemma length_prefix_block s :
  String.length (prefix_block s)
  = 74 + String.length (midi_channel s)
    + (if timingGuarantees s then 71 else 0)
    + (if enableExternalSynths s then 69 else 0)
    + (if checkArgs s then 64 else 0)
    + (if logCues s then 0 else 66)
    + (if logSynths s then 0 else 60).
Proof.
  rewrite prefix_block_unlines, StrMore.length_unlines. unfold directives.
  cbn [List.app map list_sum]. rewrite length_dir_midi.
  generalize (String.length (midi_channel s)); intros n.
  destruct (timingGuarantees s), (enableExternalSynths s), (checkArgs s),
    (logCues s), (logSynths s); cbn; lia.
Qed.

(** X1: the code comes out of [Preprocess] untouched, after the block. *)
Theorem Preprocess_keeps_code (s : APISettings) (c1 c2 : string) :
  skip (String.length (prefix_block s)) (Preprocess s c1) = c1 /\
  (Preprocess s c1 = Preprocess s c2 -> c1 = c2).
Proof.
  split.
  - rewrite Preprocess_prefix. apply StrMore.skip_app.
  - rewrite !Preprocess_prefix. apply StrMore.app_inv_head.
Qed.

(** X2: [Preprocess] always lengthens the code, by the length of the
    block, which is at least [min_block_length]; it never returns the code
    it was given. *)
Theorem Preprocess_grows (s : APISettings) (c : string) :
  String.length (Preprocess s c) = String.length (prefix_block s) + String.length c /\
  min_block_length <= String.length (prefix_block s) /\
  String.length (prefix_block quietest) = min_block_length /\
  Preprocess s c <> c.
Proof.
  assert (min_block_length <= String.length (prefix_block s)) as Hmin.
  { rewrite length_prefix_block. destruct (length_midi_channel s) as [H1 _].
    unfold min_block_length. lia. }
  assert (String.length (Preprocess s c)
          = String.length (prefix_block s) + String.length c) as Hlen
    by (rewrite Preprocess_prefix; apply StrMore.length_app).
  repeat split; try assumption; try reflexivity.
  intros E. rewrite E in Hlen. unfold min_block_length in Hmin. lia.
Qed.

(** X3: with a channel in the range of [int], [Preprocess] lengthens the
    code by at most [max_block_length] characters. *)
Theorem Preprocess_growth_bounded (s : APISettings) (c : string) :
  int_range (defaultMidiChannel s) ->
  String.length (Preprocess s c) <= String.length c + max_block_length.
Proof.
  intros Hr. rewrite Preprocess_prefix, StrMore.length_app, length_prefix_block.
  destruct (length_midi_channel s) as [_ H11]. specialize (H11 Hr).
  unfold max_block_length.
  destruct (timingGuarantees s), (enableExternalSynths s), (checkArgs s),
    (logCues s), (logSynths s); lia.
Qed.

(** The bound is reached by the most negative channel with every
    directive emitted. *)
Lemma Preprocess_growth_bounded_witness :
  int_range (defaultMidiChannel loudest) /\
  String.length (Preprocess loudest "play 60") <= String.length "play 60" + max_block_length /\
  String.length (prefix_block loudest) = max_block_length.
Proof.
  assert (int_range (defaultMidiChannel loudest)) as Hr by (unfold int_range; cbn; lia).
  split; [exact Hr|]. split.
  - exact (Preprocess_growth_bounded loudest "play 60" Hr).
  - reflexivity.
Defined.

Lemma length_directives s :
  List.length (directives s) = List.length (filter (emits s) toggles) + 1 /\
  1 <= List.length (directives s) <= 6.
Proof.
  rewrite directives_by_toggle. cbn [List.length].
  rewrite length_map, length_rev. split; [lia|].
  unfold toggles. cbn [filter].
  destruct (emits s LogSynths), (emits s LogCues), (emits s CheckArgs),
    (emits s EnableExternalSynths), (emits s TimingGuarantees); cbn; lia.
Qed.

Lemma split_nl_Preprocess s c :
  Str.split_nl (Preprocess s c) = (Str.lines (prefix_block s) ++ Str.split_nl c)%list.
Proof.
  rewrite lines_prefix_block, Preprocess_unlines.
  apply StrMore.split_nl_unlines_app, directives_no_nl.
Qed.

(** X4: the block is whole lines, so the lines of the code keep their
    content and order and move down by the number of directive lines,
    which is between one and six: line [k] of the code is line [n + k] of
    the output. *)
Theorem Preprocess_line_offset (s : APISettings) (c : string) (k : nat) :
  let n := List.length (Str.lines (prefix_block s)) in
  Str.split_nl (Preprocess s c) = (Str.lines (prefix_block s) ++ Str.split_nl c)%list /\
  n = List.length (filter (emits s) toggles) + 1 /\
  1 <= n <= 6 /\
  List.length (Str.split_nl (Preprocess s c)) = n + List.length (Str.split_nl c) /\
  nth (n + k) (Str.split_nl (Preprocess s c)) "" = nth k (Str.split_nl c) "".
Proof.
  cbv zeta. rewrite split_nl_Preprocess, lines_prefix_block.
  destruct (length_directives s) as [Hn Hb].
  repeat split; try assumption; try lia.
  - apply length_app.
  - apply app_nth2_plus.
Qed.

(** *** Reading the settings back from the block *)

Lemma toggle_directive_inj t1 t2 : toggle_directive t1 = toggle_directive t2 -> t1 = t2.
Proof. destruct t1, t2; intros H; try reflexivity; discriminate H. Qed.

Lemma map_toggle_directive_inj l1 : forall l2,
  map toggle_directive l1 = map toggle_directive l2 -> l1 = l2.
Proof.
  induction l1 as [|t l1 IH]; intros [|u l2] H; try discriminate H; [reflexivity|].
  cbn [map] in H. injection H as Ht Hl.
  f_equal; [now apply toggle_directive_inj | now apply IH].
Qed.

(** The toggles that emit tell the five toggles. *)
Lemma emits_filter_inj s1 s2 :
  filter (emits s1) toggles = filter (emits s2) toggles ->
  logSynths s1 = logSynths s2 /\ logCues s1 = logCues s2 /\
  checkArgs s1 = checkArgs s2 /\
  enableExternalSynths s1 = enableExternalSynths s2 /\
  timingGuarantees s1 = timingGuarantees s2.
Proof.
  unfold toggles. cbn [filter emits].
  destruct (logSynths s1), (logCues s1), (checkArgs s1), (enableExternalSynths s1),
    (timingGuarantees s1), (logSynths s2), (logCues s2), (checkArgs s2),
    (enableExternalSynths s2), (timingGuarantees s2); cbn [negb];
    intros H; try discriminate H; repeat split.
Qed.

Lemma append_inv_tail (a b c : string) : a ++ c = b ++ c -> a = b.
Proof.
  revert b. induction a as [|x a IH]; intros [|y b] H; cbn [append] in H.
  - reflexivity.
  - exfalso. apply (f_equal String.length) in H.
    cbn [String.length] in H. rewrite StrMore.length_app in H. lia.
  - exfalso. apply (f_equal String.length) in H.
    cbn [String.length] in H. rewrite StrMore.length_app in H. lia.
  - injection H as -> H. f_equal. now apply IH.
Qed.

Lemma midi_channel_inj s1 s2 :
  midi_channel s1 = midi_channel s2 -> defaultMidiChannel s1 = defaultMidiChannel s2.
Proof.
  unfold midi_channel.
  destruct (Z.eqb_spec (defaultMidiChannel s1) (-1)) as [E1|N1],
           (Z.eqb_spec (defaultMidiChannel s2) (-1)) as [E2|N2]; intros H.
  - congruence.
  - symmetry in H. now apply to_string_not_star in H.
  - now apply to_string_not_star in H.
  - now apply to_string_inj.
Qed.

Lemma dir_midi_inj s1 s2 :
  dir_midi s1 = dir_midi s2 -> defaultMidiChannel s1 = defaultMidiChannel s2.
Proof.
  unfold dir_midi. intros H. apply StrMore.app_inv_head in H.
  apply append_inv_tail in H. now apply midi_channel_inj.
Qed.

Lemma directives_head s : hd "" (directives s) = dir_midi s.
Proof. reflexivity. Qed.

(** X5: the block tells the settings: two settings values that write the
    same block are equal, field by field. *)
Theorem prefix_block_inj (s1 s2 : APISettings) :
  prefix_block s1 = prefix_block s2 -> s1 = s2.
Proof.
  intros H. apply (f_equal Str.lines) in H. rewrite !lines_prefix_block in H.
  assert (dir_midi s1 = dir_midi s2) as Hmidi
    by (rewrite <- !directives_head; now rewrite H).
  apply dir_midi_inj in Hmidi.
  rewrite !directives_by_toggle in H.
  assert (map toggle_directive (rev (filter (emits s1) toggles))
          = map toggle_directive (rev (filter (emits s2) toggles))) as Htog
    by (apply (f_equal (@tl string)) in H; exact H).
  apply map_toggle_directive_inj in Htog.
  apply (f_equal (@rev Toggle)) in Htog. rewrite !rev_involutive in Htog.
  apply emits_filter_inj in Htog as (H1 & H2 & H3 & H4 & H5).
  destruct s1, s2; cbn in *; congruence.
Qed.

(** The theorem at the default settings, written out field by field. *)
Lemma prefix_block_inj_witness :
  prefix_block default_settings
    = prefix_block (mkAPISettings true false true true false (-1)) /\
  default_settings = mkAPISettings true false true true false (-1).
Proof.
  assert (prefix_block default_settings
          = prefix_block (mkAPISettings true false true true false (-1))) as H
    by reflexivity.
  split; [exact H | exact (prefix_block_inj _ _ H)].
Defined.

(** *** Characters of the block *)

Lemma decimal_is_channel_char c : decimal_char c = true -> channel_char c = true.
Proof.
  unfold decimal_char, channel_char. cbn [Str.mem].
  intros H. repeat (apply orb_true_iff in H as [H|H];
    [rewrite H; rewrite ?orb_true_r; reflexivity|]).
  discriminate H.
Qed.

Lemma channel_is_block_char c : channel_char c = true -> block_char c = true.
Proof.
  unfold channel_char. cbn [Str.mem].
  intros H. repeat (apply orb_true_iff in H as [H|H];
    [apply Ascii.eqb_eq in H; subst c; reflexivity|]).
  discriminate H.
Qed.

Lemma midi_channel_chars s : Str.all channel_char (midi_channel s) = true.
Proof.
  unfold midi_channel. destruct (defaultMidiChannel s =? -1)%Z; [reflexivity|].
  apply (StrMore.all_impl decimal_char); [apply decimal_is_channel_char|].
  apply to_string_decimal.
Qed.

Lemma all_unlines p ls :
  p Str.nl_char = true -> Forall (fun l => Str.all p l = true) ls ->
  Str.all p (Str.unlines ls) = true.
Proof.
  intros Hnl. induction 1 as [|l ls Hl _ IH]; [reflexivity|].
  cbn [Str.unlines]. rewrite !StrMore.all_app, Hl, IH. cbn. now rewrite Hnl.
Qed.

Lemma occurrences_unlines c ls :
  Ascii.eqb Str.nl_char c = false ->
  occurrences c (Str.unlines ls) = list_sum (map (occurrences c) ls).
Proof.
  intros Hc. induction ls as [|l ls IH]; [reflexivity|].
  cbn [Str.unlines map]. rewrite !StrMore.occurrences_app, IH.
  cbn [Str.nl occurrences]. rewrite Hc. simpl. lia.
Qed.

Lemma list_sum_cons a l : list_sum (a :: l) = a + list_sum l.
Proof. reflexivity. Qed.

Lemma quotes_in_toggle_lines l :
  list_sum (map (occurrences "034"%char) (map toggle_directive l)) = 0.
Proof.
  induction l as [|t l IH]; [reflexivity|].
  rewrite !map_cons, list_sum_cons, IH. destruct t; reflexivity.
Qed.

(** X6: whatever the channel, it is written with digits, a minus sign or
    a star only, so the block is printable ASCII and newlines, and the only
    double quotes in it are the two around the channel. *)
Theorem prefix_block_chars (s : APISettings) :
  Str.all channel_char (midi_channel s) = true /\
  Str.all block_char (prefix_block s) = true /\
  occurrences "034"%char (prefix_block s) = 2 /\
  occurrences "034"%char (midi_channel s) = 0.
Proof.
  pose proof (midi_channel_chars s) as Hch.
  assert (occurrences "034"%char (midi_channel s) = 0) as Hq.
  { apply StrMore.occurrences_absent.
    apply (StrFacts.all_mem channel_char); [exact Hch | reflexivity]. }
  split; [exact Hch|]. split; [|split; [|exact Hq]].
  - rewrite prefix_block_unlines. apply all_unlines; [reflexivity|].
    rewrite directives_by_toggle. constructor.
    + unfold dir_midi. rewrite !StrMore.all_app.
      rewrite (StrMore.all_impl channel_char block_char _ channel_is_block_char Hch).
      reflexivity.
    + apply Forall_map, Forall_forall. intros t _. destruct t; reflexivity.
  - rewrite prefix_block_unlines, occurrences_unlines by reflexivity.
    rewrite directives_by_toggle, map_cons, list_sum_cons, quotes_in_toggle_lines.
    unfold dir_midi. rewrite !StrMore.occurrences_app, Hq. reflexivity.
Qed.

(** *** Calls in a row *)

Lemma join_single x : join [x] = x.
Proof. unfold join. cbn [fold_right]. apply StrFacts.append_nil_r. Qed.

Lemma Preprocess_all_join ss : forall c,
  Preprocess_all ss c = join (map prefix_block (rev ss)) ++ c.
Proof.
  unfold Preprocess_all. induction ss as [|s ss IH]; intros c; [reflexivity|].
  cbn [fold_left rev]. rewrite IH, map_app, StrMore.join_app.
  cbn [map]. rewrite join_single, Preprocess_prefix.
  now rewrite StrFacts.append_assoc.
Qed.

Lemma Preprocess_all_split ss : forall c,
  Str.split_nl (Preprocess_all ss c)
  = (List.concat (map (fun s => Str.lines (prefix_block s)) (rev ss))
     ++ Str.split_nl c)%list.
Proof.
  unfold Preprocess_all. induction ss as [|s ss IH]; intros c; [reflexivity|].
  cbn [fold_left rev]. rewrite IH, map_app, concat_app, split_nl_Preprocess.
  cbn [map List.concat]. now rewrite app_nil_r, <- app_assoc.
Qed.

(** X7: calls in a row, each with its own settings, stack their blocks:
    the block of the last call comes first and the block of the first call
    stands right before the code, and the lines of the code follow the
    lines of all the blocks. *)
Theorem Preprocess_all_blocks (ss : list APISettings) (c : string) :
  Preprocess_all ss c = join (map prefix_block (rev ss)) ++ c /\
  Str.split_nl (Preprocess_all ss c)
  = (List.concat (map (fun s => Str.lines (prefix_block s)) (rev ss))
     ++ Str.split_nl c)%list /\
  String.length (Preprocess_all ss c)
  = list_sum (map (fun s => String.length (prefix_block s)) ss) + String.length c.
Proof.
  split; [apply Preprocess_all_join|]. split; [apply Preprocess_all_split|].
  revert c. unfold Preprocess_all.
  induction ss as [|s ss IH]; intros c; [reflexivity|].
  cbn [fold_left map list_sum]. rewrite IH, Preprocess_prefix, StrMore.length_app.
  simpl. lia.
Qed.

(** *** Directive lines in the code *)

(** X8: the output does not mark where the code starts: code that begins
    with the debug directive, run with [logSynths] on, gives the very
    output of the rest of the code run with [logSynths] off, although the
    two settings values differ. *)
Theorem directive_in_code_ambiguous (s : APISettings) (c : string) :
  logSynths s = true ->
  Preprocess s (lit_debug ++ c) = Preprocess (set_logSynths false s) c /\
  s <> set_logSynths false s.
Proof.
  intros H. split.
  - unfold Preprocess. rewrite !Preprocess_body_eq.
    cbn [this code set_logSynths logSynths logCues checkArgs enableExternalSynths
         timingGuarantees].
    rewrite H. cbn [negb opt]. reflexivity.
  - intros E. apply (f_equal logSynths) in E. cbn in E. congruence.
Qed.

(** The theorem at the default settings, which have [logSynths] on. *)
Lemma directive_in_code_ambiguous_witness :
  logSynths default_settings = true /\
  Preprocess default_settings (lit_debug ++ "play 60")
  = Preprocess (set_logSynths false default_settings) "play 60".
Proof.
  split; [reflexivity|].
  exact (proj1 (directive_in_code_ambiguous default_settings "play 60" eq_refl)).
Defined.
